(** * The LMDB collection backend of ModSecurity

    A shallow embedding of [src/collection/backend/lmdb.cc]: the environment
    provider, the transaction wrapper [txn_begin], and the eight operations of
    the backend ([resolveFirst], [storeOrUpdateFirst], [resolveSingleMatch],
    [store], [updateFirst], [del], [resolveMultiMatches],
    [resolveRegularExpression]).

    The storage engine (liblmdb) is a library the backend links against.  It is
    modelled here as a small transactional table with sorted duplicates whose
    calls can fail: each fallible engine call takes its status from a script of
    statuses carried by the state, so that every path of the backend can be
    exercised. *)

From Stdlib Require Import List String Ascii ZArith Bool Lia Arith.
Import ListNotations.

Open Scope string_scope.
Open Scope Z_scope.

(** ** Bytes, C strings and [MDB_val] *)

Definition NUL : ascii := "000"%char.

Definition byte_val (c : ascii) : Z := Z.of_N (N_of_ascii c).

(** The byte found at a [char*]; the end of the modelled buffer reads as the
    terminating NUL. *)
Definition byte_at (mem : string) : Z :=
  match mem with
  | EmptyString => 0
  | String c _ => byte_val c
  end.

Definition advance (mem : string) : string :=
  match mem with
  | EmptyString => EmptyString
  | String _ m => m
  end.

(** [strncmp(s1, s2, n)]: at most [n] bytes are compared, as unsigned chars,
    and the comparison stops after a NUL. *)
Fixpoint strncmp (s1 s2 : string) (n : nat) : Z :=
  match n with
  | O => 0
  | S n' =>
      let c1 := byte_at s1 in
      let c2 := byte_at s2 in
      if negb (c1 =? c2) then c1 - c2
      else if c1 =? 0 then 0
      else strncmp (advance s1) (advance s2) n'
  end.

(** What a callee receives when it is handed a bare [char*] and builds a
    string from it: the bytes up to the first NUL. *)
Fixpoint c_str_read (mem : string) : string :=
  match mem with
  | EmptyString => EmptyString
  | String c m => if Ascii.eqb c NUL then EmptyString else String c (c_str_read m)
  end.

(** [MDB_val]: a length and a pointer.  [mv_data] is the memory found at the
    pointer: the [mv_size] bytes of the item, followed by whatever the engine
    keeps behind it. *)
Record MDB_val := mkVal { mv_size : nat; mv_data : string }.

(** [LMDB::string2val]. *)
Definition string2val (str : string) : MDB_val :=
  {| mv_size := String.length str; mv_data := str |}.

(** [std::string(reinterpret_cast<char *>(v.mv_data), v.mv_size)]. *)
Definition val2string (v : MDB_val) : string :=
  substring 0 (mv_size v) (mv_data v).

Definition null_val : MDB_val := {| mv_size := 0; mv_data := "" |}.

(** ** The table: records with sorted duplicates *)

Definition record : Type := string * string.
Definition table : Type := list record.

(** The engine's default comparison (bytewise, shorter first) on keys, then on
    the values of one key. *)
Definition rec_compare (a b : record) : comparison :=
  match String.compare (fst a) (fst b) with
  | Eq => String.compare (snd a) (snd b)
  | c => c
  end.

Definition rec_eqb (a b : record) : bool :=
  String.eqb (fst a) (fst b) && String.eqb (snd a) (snd b).

Definition has_key (k : string) (r : record) : bool := String.eqb (fst r) k.

(** Insertion of a pair at its place; a pair already present is kept once. *)
Fixpoint table_put (r : record) (t : table) : table :=
  match t with
  | [] => [r]
  | x :: t' =>
      match rec_compare r x with
      | Lt => r :: x :: t'
      | Eq => x :: t'
      | Gt => x :: table_put r t'
      end
  end.

(** The first record of a key, that is, the least of its duplicates. *)
Definition table_get (k : string) (t : table) : option record :=
  find (has_key k) t.

(** Removal of one key/value pair. *)
Definition table_del (r : record) (t : table) : table :=
  filter (fun x => negb (rec_eqb x r)) t.

Fixpoint sorted (t : table) : Prop :=
  match t with
  | [] => True
  | x :: t' =>
      match t' with
      | [] => True
      | y :: _ => rec_compare x y = Lt /\ sorted t'
      end
  end.

(** ** Engine state *)

Definition MDB_RDONLY : Z := 0x20000.
Definition MDB_NOTFOUND : Z := -30798.
Definition EINVAL : Z := 22.
Definition EACCES : Z := 13.

(** Calls on transactions, as the engine receives them. *)
Inductive call : Type :=
| TxnBegin (rdonly : bool) (rc : Z)
| TxnCommit (rc : Z)
| TxnAbort.

Record MDB_txn := mkTxn { txn_rdonly : bool; txn_table : table }.

(** A cursor: the key it stands on ([None] until it has been positioned) and
    the records ahead of it. *)
Record MDB_cursor := mkCursor { cur_key : option string; ahead : table }.

Inductive MDB_cursor_op : Type := MDB_NEXT | MDB_NEXT_DUP.

Record world := mkWorld {
  valid : bool;                         (* MDBEnvProvider::valid *)
  isOpen : bool;                        (* LMDB::isOpen *)
  db : table;                           (* the committed records *)
  script : list Z;                      (* statuses of the coming engine calls *)
  after_key : string -> string -> string; (* memory behind a key in its page *)
  trace : list call;                    (* transaction calls made so far *)
  undefined : bool                      (* an invalid handle was used *)
}.

(** ** A state monad over the engine state *)

Definition M (A : Type) : Type := world -> A * world.

Definition ret {A} (a : A) : M A := fun w => (a, w).

Definition bind {A B} (m : M A) (k : A -> M B) : M B :=
  fun w => let (a, w') := m w in k a w'.

Declare Scope lmdb_scope.
Delimit Scope lmdb_scope with lmdb.
Notation "x <- m ;; k" := (bind m (fun x => k))
  (at level 61, m at next level, right associativity) : lmdb_scope.
Notation "' pat <- m ;; k" := (bind m (fun x => match x with pat => k end))
  (at level 61, pat pattern, m at next level, right associativity) : lmdb_scope.
Notation "m ;;; k" := (bind m (fun _ => k))
  (at level 61, right associativity) : lmdb_scope.
Open Scope lmdb_scope.

Definition failed (rc : Z) : bool := negb (rc =? 0).

(** The status of the coming engine call; an exhausted script means success. *)
Definition next_status : M Z := fun w =>
  match script w with
  | [] => (0, w)
  | rc :: s =>
      (rc, mkWorld (valid w) (isOpen w) (db w) s (after_key w) (trace w) (undefined w))
  end.

Definition log (c : call) : M unit := fun w =>
  (tt, mkWorld (valid w) (isOpen w) (db w) (script w) (after_key w)
               (trace w ++ [c]) (undefined w)).

Definition set_db (t : table) : M unit := fun w =>
  (tt, mkWorld (valid w) (isOpen w) t (script w) (after_key w) (trace w) (undefined w)).

Definition set_valid (b : bool) : M unit := fun w =>
  (tt, mkWorld b (isOpen w) (db w) (script w) (after_key w) (trace w) (undefined w)).

Definition set_isOpen (b : bool) : M unit := fun w =>
  (tt, mkWorld (valid w) b (db w) (script w) (after_key w) (trace w) (undefined w)).

Definition bad_handle : M unit := fun w =>
  (tt, mkWorld (valid w) (isOpen w) (db w) (script w) (after_key w) (trace w) true).

Definition get_world : M world := fun w => (w, w).

(** ** Engine calls *)

Definition mdb_txn_begin (flags : Z) : M (Z * option MDB_txn) :=
  let rdonly := negb (Z.land flags MDB_RDONLY =? 0) in
  rc <- next_status ;;
  log (TxnBegin rdonly rc) ;;;
  if failed rc then ret (rc, None)
  else w <- get_world ;; ret (0, Some (mkTxn rdonly (db w))).

(** The handle is released whether or not the commit succeeds; the writes
    reach the table only when it does. *)
Definition mdb_txn_commit (txn : option MDB_txn) : M Z :=
  match txn with
  | None => bad_handle ;;; ret EINVAL
  | Some t =>
      rc <- next_status ;;
      log (TxnCommit rc) ;;;
      if failed rc then ret rc
      else (if txn_rdonly t then ret tt else set_db (txn_table t)) ;;; ret 0
  end.

Definition mdb_txn_abort (txn : option MDB_txn) : M unit :=
  match txn with
  | None => ret tt
  | Some _ => log TxnAbort
  end.

Definition mdb_get (txn : option MDB_txn) (key : MDB_val) : M (Z * MDB_val) :=
  match txn with
  | None => bad_handle ;;; ret (EINVAL, null_val)
  | Some t =>
      rc <- next_status ;;
      if failed rc then ret (rc, null_val)
      else match table_get (val2string key) (txn_table t) with
           | Some r => ret (0, string2val (snd r))
           | None => ret (MDB_NOTFOUND, null_val)
           end
  end.

Definition mdb_put (txn : option MDB_txn) (key data : MDB_val)
  : M (Z * option MDB_txn) :=
  match txn with
  | None => bad_handle ;;; ret (EINVAL, None)
  | Some t =>
      rc <- next_status ;;
      if failed rc then ret (rc, txn)
      else if txn_rdonly t then ret (EACCES, txn)
      else ret (0, Some (mkTxn false
                  (table_put (val2string key, val2string data) (txn_table t))))
  end.

(** With a value given, only the matching pair is deleted. *)
Definition mdb_del (txn : option MDB_txn) (key data : MDB_val)
  : M (Z * option MDB_txn) :=
  match txn with
  | None => bad_handle ;;; ret (EINVAL, None)
  | Some t =>
      rc <- next_status ;;
      if failed rc then ret (rc, txn)
      else if txn_rdonly t then ret (EACCES, txn)
      else
        let r := (val2string key, val2string data) in
        if existsb (fun x => rec_eqb x r) (txn_table t)
        then ret (0, Some (mkTxn false (table_del r (txn_table t))))
        else ret (MDB_NOTFOUND, txn)
  end.

Definition mdb_cursor_open (txn : option MDB_txn) : M (Z * option MDB_cursor) :=
  match txn with
  | None => bad_handle ;;; ret (EINVAL, None)
  | Some t =>
      rc <- next_status ;;
      if failed rc then ret (rc, None)
      else ret (0, Some (mkCursor None (txn_table t)))
  end.

(** [MDB_NEXT] moves to the next record.  [MDB_NEXT_DUP] moves to the next
    value of the key the cursor stands on; on a cursor that has not been
    positioned both start at the first record of the table.  The key argument
    is an output of either operation. *)
Definition mdb_cursor_get (cursor : option MDB_cursor) (op : MDB_cursor_op)
  : M (Z * MDB_val * MDB_val * option MDB_cursor) :=
  match cursor with
  | None => bad_handle ;;; ret (EINVAL, null_val, null_val, None)
  | Some c =>
      rc <- next_status ;;
      if failed rc then ret (rc, null_val, null_val, cursor)
      else
        match ahead c with
        | [] => ret (MDB_NOTFOUND, null_val, null_val, cursor)
        | (k, v) :: rest =>
            let same_key :=
              match cur_key c with
              | None => true
              | Some k0 => String.eqb k0 k
              end in
            let go :=
              match op with
              | MDB_NEXT => true
              | MDB_NEXT_DUP => same_key
              end in
            if go then
              w <- get_world ;;
              ret (0, mkVal (String.length k) (k ++ after_key w k v),
                      string2val v, Some (mkCursor (Some k) rest))
            else ret (MDB_NOTFOUND, null_val, null_val, cursor)
        end
  end.

Definition mdb_cursor_close (cursor : option MDB_cursor) : M unit :=
  match cursor with
  | None => bad_handle
  | Some _ => ret tt
  end.

Definition cursor_left (cursor : option MDB_cursor) : nat :=
  match cursor with
  | None => 0%nat
  | Some c => List.length (ahead c)
  end.

(** ** Collaborators of the backend

    [VariableValue], [KeyExclusions] and the regular-expression facility are
    declared in headers of the rule engine; the backend only constructs the
    first and calls the other two. *)

Record VariableValue := mkVariableValue {
  vv_collection : string;
  vv_key : string;
  vv_value : string
}.

(** [VariableValue(key, value)]. *)
Definition VariableValue2 (key value : string) : VariableValue :=
  mkVariableValue "" key value.

(** [VariableValue(collection, key, value)]. *)
Definition VariableValue3 (collection key value : string) : VariableValue :=
  mkVariableValue collection key value.

Record KeyExclusions := mkKeyExclusions { toOmit : string -> bool }.

(** [Utils::Regex r(pattern, flag)]. *)
Record Regex := mkRegex { regex_pattern : string; regex_flag : bool }.

(** [Utils::regex_search(s, r)]: the number of matches found in [s]. *)
Class RegexFacility := { regex_search : string -> Regex -> Z }.

(** ** The environment provider *)

Definition mdb_env_open : M Z := next_status.

Definition mdb_dbi_open (txn : option MDB_txn) : M Z :=
  match txn with
  | None => bad_handle ;;; ret EINVAL
  | Some _ => next_status
  end.

(** The state before the provider is constructed: the records found in the
    file, the statuses the engine is going to answer, the page layout. *)
Definition boot (file : table) (statuses : list Z)
                (layout : string -> string -> string) : world :=
  mkWorld false false file statuses layout [] false.

(** [MDBEnvProvider::MDBEnvProvider]. *)
Definition MDBEnvProvider : M unit :=
  set_valid false ;;;
  rc <- mdb_env_open ;;
  if rc =? 0 then
    set_valid true ;;;
    '(_, txn) <- mdb_txn_begin 0 ;;
    _ <- mdb_dbi_open txn ;;
    _ <- mdb_txn_commit txn ;;
    ret tt
  else ret tt.

(** [MDBEnvProvider::isValid]. *)
Definition isValid (w : world) : bool := valid w.

(** ** The backend *)

(** [LMDB::txn_begin]. *)
Definition txn_begin (flags : Z) : M (Z * option MDB_txn) :=
  w <- get_world ;;
  (if negb (isOpen w) then set_isOpen true else ret tt) ;;;
  w <- get_world ;;
  if isValid w then mdb_txn_begin flags else ret (-1, None).

(** The cleanup shared by the labels placed before [end_commit]:
    [if (rc != 0) mdb_txn_abort(txn);]. *)
Definition abort_if_failed (rc : Z) (txn : option MDB_txn) : M unit :=
  if failed rc then mdb_txn_abort txn else ret tt.

(** [while ((rc = mdb_cursor_get(cursor, &key, &data, op)) == 0) { body }]:
    the loop of the three scanning operations.  Every turn takes a record
    from those ahead of the cursor, so one turn more than their number
    is all the loop can make. *)
Fixpoint while_cursor_get {A} (fuel : nat) (cursor : option MDB_cursor)
    (op : MDB_cursor_op) (body : MDB_val -> MDB_val -> A -> A) (acc : A) : M A :=
  match fuel with
  | O => ret acc
  | S fuel' =>
      '(rc, key, data, cursor) <- mdb_cursor_get cursor op ;;
      if failed rc then ret acc
      else while_cursor_get fuel' cursor op body (body key data acc)
  end.

(** [LMDB::resolveFirst]. *)
Definition resolveFirst (var : string) : M (option string) :=
  let mdb_key := string2val var in
  '(rc, txn) <- txn_begin MDB_RDONLY ;;
  if failed rc then ret None
  else
    '(rc, mdb_value_ret) <- mdb_get txn mdb_key ;;
    let r := if failed rc then None else Some (val2string mdb_value_ret) in
    mdb_txn_abort txn ;;;
    ret r.

(** The body of [LMDB::storeOrUpdateFirst] up to its [return]: the value of
    [rc] when the last label is reached.  A lookup that does not succeed only
    skips the deletion. *)
Definition storeOrUpdateFirst_rc (key value : string) : M Z :=
  let mdb_key := string2val key in
  let mdb_value := string2val value in
  let put_and_commit (txn : option MDB_txn) : M Z :=
    '(rc, txn) <- mdb_put txn mdb_key mdb_value ;;
    if failed rc then abort_if_failed rc txn ;;; ret rc
    else
      rc <- mdb_txn_commit txn ;;
      if failed rc then ret rc
      else abort_if_failed rc txn ;;; ret rc in
  '(rc, txn) <- txn_begin 0 ;;
  if failed rc then ret rc
  else
    '(rc, mdb_value_ret) <- mdb_get txn mdb_key ;;
    if rc =? 0 then
      '(rc, txn) <- mdb_del txn mdb_key mdb_value_ret ;;
      if failed rc then abort_if_failed rc txn ;;; ret rc
      else put_and_commit txn
    else put_and_commit txn.

(** [LMDB::storeOrUpdateFirst]: [return true;]. *)
Definition storeOrUpdateFirst (key value : string) : M bool :=
  _ <- storeOrUpdateFirst_rc key value ;;
  ret true.

(** [LMDB::resolveSingleMatch]; the status of [mdb_cursor_open] is not read. *)
Definition resolveSingleMatch (var : string) (l : list VariableValue)
  : M (list VariableValue) :=
  '(rc, txn) <- txn_begin MDB_RDONLY ;;
  if failed rc then ret l
  else
    '(_, cursor) <- mdb_cursor_open txn ;;
    l <- while_cursor_get (S (cursor_left cursor)) cursor MDB_NEXT_DUP
           (fun _ mdb_value_ret l =>
              (l ++ [VariableValue2 var (val2string mdb_value_ret)])%list) l ;;
    mdb_cursor_close cursor ;;;
    mdb_txn_abort txn ;;;
    ret l.

(** The body of [LMDB::store]. *)
Definition store_rc (key value : string) : M Z :=
  '(rc, txn) <- txn_begin 0 ;;
  if failed rc then ret rc
  else
    '(rc, txn) <- mdb_put txn (string2val key) (string2val value) ;;
    if failed rc then abort_if_failed rc txn ;;; ret rc
    else
      rc <- mdb_txn_commit txn ;;
      if failed rc then ret rc
      else abort_if_failed rc txn ;;; ret rc.

(** [LMDB::store] returns [void]. *)
Definition store (key value : string) : M unit :=
  _ <- store_rc key value ;;
  ret tt.

(** The body of [LMDB::updateFirst]. *)
Definition updateFirst_rc (key value : string) : M Z :=
  '(rc, txn) <- txn_begin 0 ;;
  if failed rc then ret rc
  else
    let mdb_key := string2val key in
    let mdb_value := string2val value in
    '(rc, mdb_value_ret) <- mdb_get txn mdb_key ;;
    if failed rc then abort_if_failed rc txn ;;; ret rc
    else
      '(rc, txn) <- mdb_del txn mdb_key mdb_value_ret ;;
      if failed rc then abort_if_failed rc txn ;;; ret rc
      else
        '(rc, txn) <- mdb_put txn mdb_key mdb_value ;;
        if failed rc then abort_if_failed rc txn ;;; ret rc
        else
          rc <- mdb_txn_commit txn ;;
          if failed rc then ret rc
          else abort_if_failed rc txn ;;; ret rc.

(** [LMDB::updateFirst]: [return rc == 0;]. *)
Definition updateFirst (key value : string) : M bool :=
  rc <- updateFirst_rc key value ;;
  ret (rc =? 0).

(** The body of [LMDB::del]. *)
Definition del_rc (key : string) : M Z :=
  '(rc, txn) <- txn_begin 0 ;;
  if failed rc then ret rc
  else
    let mdb_key := string2val key in
    '(rc, mdb_value_ret) <- mdb_get txn mdb_key ;;
    if failed rc then abort_if_failed rc txn ;;; ret rc
    else
      '(rc, txn) <- mdb_del txn mdb_key mdb_value_ret ;;
      if failed rc then abort_if_failed rc txn ;;; ret rc
      else
        rc <- mdb_txn_commit txn ;;
        if failed rc then ret rc
        else abort_if_failed rc txn ;;; ret rc.

(** [LMDB::del] returns [void]. *)
Definition del (key : string) : M unit :=
  _ <- del_rc key ;;
  ret tt.

(** [LMDB::resolveMultiMatches]: every record when the prefix is empty, the
    records accepted by [strncmp] otherwise; [ke] is a parameter of the
    function. *)
Definition resolveMultiMatches (m_name var : string) (l : list VariableValue)
    (ke : KeyExclusions) : M (list VariableValue) :=
  let keySize := String.length var in
  '(rc, txn) <- txn_begin MDB_RDONLY ;;
  if failed rc then ret l
  else
    '(rc, cursor) <- mdb_cursor_open txn ;;
    if failed rc then mdb_txn_abort txn ;;; ret l
    else
      l <- (if Nat.eqb keySize 0
            then
              while_cursor_get (S (cursor_left cursor)) cursor MDB_NEXT
                (fun key data l =>
                   VariableValue3 m_name (val2string key) (val2string data) :: l) l
            else
              while_cursor_get (S (cursor_left cursor)) cursor MDB_NEXT
                (fun key data l =>
                   let a := mv_data key in
                   if strncmp var a keySize =? 0
                   then VariableValue3 m_name (val2string key) (val2string data) :: l
                   else l) l) ;;
      mdb_cursor_close cursor ;;;
      mdb_txn_abort txn ;;;
      ret l.

(** [LMDB::resolveRegularExpression]; [regex_search] is handed the pointer
    [a] alone. *)
Definition resolveRegularExpression `{RegexFacility} (var : string)
    (l : list VariableValue) (ke : KeyExclusions) : M (list VariableValue) :=
  let r := mkRegex var true in
  '(rc, txn) <- txn_begin MDB_RDONLY ;;
  if failed rc then ret l
  else
    '(rc, cursor) <- mdb_cursor_open txn ;;
    if failed rc then mdb_txn_abort txn ;;; ret l
    else
      l <- while_cursor_get (S (cursor_left cursor)) cursor MDB_NEXT
             (fun key data l =>
                let a := mv_data key in
                let ret_ := regex_search (c_str_read a) r in
                if ret_ <=? 0 then l
                else if toOmit ke (val2string key) then l
                else VariableValue2 (val2string key) (val2string data) :: l) l ;;
      mdb_cursor_close cursor ;;;
      mdb_txn_abort txn ;;;
      ret l.

(** ** Running the operations *)

Definition no_layout : string -> string -> string := fun _ _ => "".

(** The value bytes lie right behind the key bytes. *)
Definition value_follows : string -> string -> string := fun _ v => v.

Definition opened (file : table) (statuses : list Z)
    (layout : string -> string -> string) : world :=
  snd (MDBEnvProvider (boot file statuses layout)).

Definition run {A} (m : M A) (w : world) : world := snd (m w).
Definition result {A} (m : M A) (w : world) : A := fst (m w).

Open Scope list_scope.

(** * Vocabulary of the statements *)

(** ** Scans *)


(** The [MDB_val] a cursor hands out for the key of a record. *)
Definition key_val (w : world) (r : record) : MDB_val :=
  mkVal (String.length (fst r)) (fst r ++ after_key w (fst r) (snd r))%string.

(** The records [MDB_NEXT_DUP] walks through: those of the key the cursor
    stands on, or of the first key when the cursor stands nowhere. *)
Fixpoint dup_run (ck : option string) (t : table) : table :=
  match t with
  | [] => []
  | (k, v) :: rest =>
      if match ck with None => true | Some k0 => String.eqb k0 k end
      then (k, v) :: dup_run (Some k) rest
      else []
  end.

(** The test [resolveMultiMatches] applies to a record. *)
Definition accepted (var : string) (w : world) (r : record) : bool :=
  Nat.eqb (String.length var) 0
  || (strncmp var (mv_data (key_val w r)) (String.length var) =? 0).

(** The test [resolveRegularExpression] applies to a record. *)
Definition selected `{RegexFacility} (var : string) (ke : KeyExclusions)
    (w : world) (r : record) : bool :=
  negb (regex_search (c_str_read (mv_data (key_val w r))) (mkRegex var true) <=? 0)
  && negb (toOmit ke (fst r)).

(** The engine reports no failure from now on: every status left in the
    script is zero. *)
Definition calm (s : list Z) : bool := forallb (fun rc => rc =? 0) s.

Definition quiet (w : world) : bool := calm (script w).

(** A string without NUL bytes. *)
Fixpoint nul_free (s : string) : bool :=
  match s with
  | EmptyString => true
  | String c s' => negb (Ascii.eqb c NUL) && nul_free s'
  end.

(** ** Transaction calls *)

(** The calls a mutating operation makes, given the status [rc] it ends
    with: none when the environment is invalid; a refused begin; a begin
    followed by one abort; a begin followed by one commit, which the engine
    accepted exactly when [rc] is zero. *)
Inductive write_bracket : Z -> list call -> Prop :=
| wb_invalid : write_bracket (-1) []
| wb_begin_failed rc : rc <> 0 -> write_bracket rc [TxnBegin false rc]
| wb_aborted rc : rc <> 0 -> write_bracket rc [TxnBegin false 0; TxnAbort]
| wb_commit_failed rc : rc <> 0 -> write_bracket rc [TxnBegin false 0; TxnCommit rc]
| wb_committed : write_bracket 0 [TxnBegin false 0; TxnCommit 0].


(** The statuses [store] reads: the environment must be valid, and the
    begin, the insert and the commit must each be answered with zero. *)
Definition store_steps_ok (w : world) : bool :=
  valid w && (nth 0 (script w) 0 =? 0) && (nth 1 (script w) 0 =? 0)
          && (nth 2 (script w) 0 =? 0).

(** What an operation leaves alone when it does not reach the engine. *)
Definition untouched (w w' : world) : Prop :=
  isValid w' = false /\ db w' = db w /\ trace w' = trace w /\
  script w' = script w /\ undefined w' = undefined w.

(** ** Inputs of the examples *)

Definition key_a0c : string := String "a" (String NUL "c").
Definition key_a0b : string := String "a" (String NUL "b").

(** [occurs p s]: [p] is found somewhere in [s]. *)
Fixpoint occurs (p s : string) : bool :=
  String.prefix p s
  || match s with
     | EmptyString => false
     | String _ s' => occurs p s'
     end.

(** A search facility for patterns without metacharacters, for which a
    search is a substring search. *)
Definition literal_search : RegexFacility :=
  {| regex_search := fun s r => if occurs (regex_pattern r) s then 1 else 0 |}.

Definition omit_nothing : KeyExclusions := mkKeyExclusions (fun _ => false).

(** * Properties *)

(** ** Strings and tables *)

Lemma substring_whole (s : string) : substring 0 (String.length s) s = s.
Proof.
  induction s as [|c s IH]; simpl; [reflexivity | now rewrite IH].
Qed.

Lemma val2string_string2val (s : string) : val2string (string2val s) = s.
Proof. apply substring_whole. Qed.


Lemma rec_eqb_eq (a b : record) : rec_eqb a b = true <-> a = b.
Proof.
  destruct a as [ka va], b as [kb vb]; unfold rec_eqb; simpl.
  rewrite andb_true_iff, !String.eqb_eq. split.
  - intros [-> ->]; reflexivity.
  - intros H; inversion H; auto.
Qed.


Lemma table_get_None (k : string) (t : table) :
  table_get k t = None <-> forall v, ~ In (k, v) t.
Proof.
  unfold table_get. split.
  - intros H v Hin. apply (find_none _ _ H) in Hin.
    unfold has_key in Hin; simpl in Hin. now rewrite String.eqb_refl in Hin.
  - intros H. destruct (find (has_key k) t) as [[k' v']|] eqn:Hf; [|reflexivity].
    apply find_some in Hf as [Hin Hk]. unfold has_key in Hk; simpl in Hk.
    apply String.eqb_eq in Hk; subst. now apply H in Hin.
Qed.


Lemma table_get_key (k : string) (t : table) (r : record) :
  table_get k t = Some r -> fst r = k /\ In r t.
Proof.
  unfold table_get. intros H. apply find_some in H as [Hin Hk].
  split; [now apply String.eqb_eq|assumption].
Qed.

Lemma existsb_rec_eqb (r : record) (t : table) :
  existsb (fun x => rec_eqb x r) t = true <-> In r t.
Proof.
  rewrite existsb_exists. split.
  - intros [x [Hin Hx]]. apply rec_eqb_eq in Hx. now subst.
  - intros Hin. exists r. split; [assumption|now apply rec_eqb_eq].
Qed.

Lemma In_table_del (r p : record) (t : table) :
  In p (table_del r t) <-> In p t /\ p <> r.
Proof.
  unfold table_del. rewrite filter_In, negb_true_iff.
  split; intros [Hin Hne]; split; auto.
  - intros ->. assert (rec_eqb r r = true) by now apply rec_eqb_eq. congruence.
  - destruct (rec_eqb p r) eqn:He; [|reflexivity].
    apply rec_eqb_eq in He. contradiction.
Qed.

(** When a key has at most one record, deleting the record found for it
    leaves none. *)
Lemma table_get_del_single (k : string) (t : table) (r : record) :
  (List.length (filter (has_key k) t) <= 1)%nat ->
  table_get k t = Some r ->
  table_get k (table_del r t) = None.
Proof.
  intros Hlen Hget. apply table_get_None. intros v Hin.
  apply In_table_del in Hin as [Hin Hne].
  apply table_get_key in Hget as [Hk Hr].
  assert (H1 : In (k, v) (filter (has_key k) t)).
  { apply filter_In. split; [assumption|]. unfold has_key; simpl.
    apply String.eqb_refl. }
  assert (H2 : In r (filter (has_key k) t)).
  { apply filter_In. split; [assumption|]. unfold has_key.
    rewrite Hk. apply String.eqb_refl. }
  destruct (filter (has_key k) t) as [|x [|y rest]]; simpl in *.
  - contradiction.
  - destruct H1 as [H1|[]], H2 as [H2|[]]. apply Hne. congruence.
  - lia.
Qed.

Lemma table_put_sorted (r : record) (t : table) :
  sorted t -> sorted (table_put r t).
Proof.
  induction t as [|x t IH]; simpl; [trivial|].
  intros Hs. destruct (rec_compare r x) eqn:Hc.
  - exact Hs.
  - split; assumption.
  - assert (Hxr : rec_compare x r = Lt).
    { destruct r as [kr vr], x as [kx vx]; unfold rec_compare in *; simpl in *.
      rewrite (String.compare_antisym kx kr).
      destruct (String.compare kr kx) eqn:Hk; simpl in *; try discriminate.
      - rewrite (String.compare_antisym vx vr), Hc. reflexivity.
      - reflexivity. }
    destruct t as [|y t]; simpl.
    + split; trivial.
    + destruct Hs as [Hxy Hs]. specialize (IH Hs). simpl in IH.
      destruct (rec_compare r y); simpl; auto.
Qed.

Lemma substring_prefix (k tl : string) :
  substring 0 (String.length k) (k ++ tl)%string = k.
Proof.
  induction k as [|c k IH]; simpl.
  - destruct tl; reflexivity.
  - now rewrite IH.
Qed.

(** ** Symbolic execution of the operations *)

Lemma failed_true (rc : Z) : failed rc = true -> rc <> 0.
Proof. unfold failed. now rewrite negb_true_iff, Z.eqb_neq. Qed.

Lemma failed_false (rc : Z) : failed rc = false -> rc = 0.
Proof. unfold failed. now rewrite negb_false_iff, Z.eqb_eq. Qed.

Ltac exec :=
  unfold store, store_rc, del, del_rc, updateFirst, updateFirst_rc,
    storeOrUpdateFirst, storeOrUpdateFirst_rc, resolveFirst,
    resolveSingleMatch, resolveMultiMatches, resolveRegularExpression,
    txn_begin, abort_if_failed, mdb_txn_begin, mdb_txn_commit, mdb_txn_abort,
    mdb_get, mdb_put, mdb_del, mdb_cursor_open, mdb_cursor_close,
    mdb_cursor_get, next_status, log, set_db, set_isOpen, bad_handle,
    get_world, isValid, bind, ret, run, result,
    MDB_NOTFOUND, EINVAL, EACCES, MDB_RDONLY in *.

Ltac split_match :=
  match goal with
  | |- context [match ?x with _ => _ end] => is_var x; destruct x eqn:?
  | |- context [negb ?x] => is_var x; destruct x eqn:?
  | |- context [failed ?x] => is_var x; destruct (failed x) eqn:?
  | |- context [?x =? 0] => is_var x; destruct (x =? 0) eqn:?
  | |- context [table_get ?k ?t] => destruct (table_get k t) eqn:?
  | |- context [existsb ?f ?t] => destruct (existsb f t) eqn:?
  | |- context [String.eqb ?a ?b] => destruct (String.eqb a b) eqn:?
  | |- context [Nat.eqb ?a ?b] => destruct (Nat.eqb a b) eqn:?
  end.

#[local] Arguments val2string : simpl never.

Ltac crunch :=
  rewrite ?val2string_string2val in *; simpl in *;
  repeat (split_match; rewrite ?val2string_string2val in *; simpl in *);
  try discriminate.

Ltac rc_facts :=
  repeat match goal with
  | H : failed _ = true |- _ => apply failed_true in H
  | H : failed _ = false |- _ => apply failed_false in H
  | H : (_ =? _) = true |- _ => apply Z.eqb_eq in H
  | H : (_ =? _) = false |- _ => apply Z.eqb_neq in H
  end; subst; try congruence.

(** ** The scanning loop *)





(** An opened cursor is a valid handle: the scan marks nothing. *)
Lemma while_cursor_get_defined {A} (fuel : nat) (c : MDB_cursor)
    (op : MDB_cursor_op) (body : MDB_val -> MDB_val -> A -> A) (acc : A)
    (w : world) :
  undefined (snd (while_cursor_get fuel (Some c) op body acc w)) = undefined w.
Proof.
  revert c acc w. induction fuel as [|fuel IH]; intros c acc w; simpl.
  - reflexivity.
  - destruct w as [vl io d s a t u], c as [ck [|[k v] rest]], op;
      exec; crunch; try reflexivity; try apply IH.
Qed.

(** The fuel given by the operations is enough: with more turns allowed than
    there are records ahead, the loop ends on a status of the engine, and
    any such allowance gives the same run. *)
Lemma while_cursor_get_fuel {A} (fuel1 fuel2 : nat) (cursor : option MDB_cursor)
    (op : MDB_cursor_op) (body : MDB_val -> MDB_val -> A -> A) (acc : A)
    (w : world) :
  (cursor_left cursor < fuel1)%nat -> (cursor_left cursor < fuel2)%nat ->
  while_cursor_get fuel1 cursor op body acc w =
  while_cursor_get fuel2 cursor op body acc w.
Proof.
  revert fuel2 cursor acc w.
  induction fuel1 as [|fuel1 IH]; intros fuel2 cursor acc w H1 H2; [lia|].
  destruct fuel2 as [|fuel2]; [lia|].
  destruct w as [vl io d s a t u], cursor as [[ck [|[k v] rest]]|], op;
    simpl; exec; crunch; try reflexivity; apply IH; simpl in *; lia.
Qed.

(** *** Scans when the engine reports no failure *)

Lemma val2string_key_val (w : world) (r : record) :
  val2string (key_val w r) = fst r.
Proof. apply substring_prefix. Qed.

Lemma calm_cons (z : Z) (s : list Z) :
  calm (z :: s) = true -> z = 0 /\ calm s = true.
Proof.
  unfold calm; simpl. rewrite andb_true_iff, Z.eqb_eq. auto.
Qed.


Ltac calm_facts :=
  repeat match goal with
  | H : calm (_ :: _) = true |- _ =>
      let E := fresh "E" in apply calm_cons in H as [E H]; subst
  end.

Ltac calm_world w Hv Hq :=
  let s := fresh "s" in
  destruct w as [? ? ? s ? ? ?];
  unfold quiet in Hq; cbn [script valid] in Hv, Hq; subst;
  destruct s as [|? [|? [|? [|? [|? s]]]]]; calm_facts.

Lemma while_next_quiet {A} (body : MDB_val -> MDB_val -> A -> A) :
  forall (t : table) (ck : option string) (fuel : nat) (acc : A) (w : world),
    quiet w = true -> (List.length t < fuel)%nat ->
    fst (while_cursor_get fuel (Some (mkCursor ck t)) MDB_NEXT body acc w) =
    fold_left (fun acc r => body (key_val w r) (string2val (snd r)) acc) t acc.
Proof.
  induction t as [|[k v] t IH]; intros ck fuel acc w Hq Hf;
    (destruct fuel as [|fuel]; [simpl in Hf; lia|]);
    destruct w as [vl io d [|z s] a tr u]; unfold quiet in Hq; cbn [script] in Hq;
    calm_facts; simpl; exec; simpl; try reflexivity.
  - rewrite IH by (simpl in *; (reflexivity || lia)). reflexivity.
  - rewrite IH by (simpl in *; (assumption || lia)). reflexivity.
Qed.

Lemma while_next_dup_quiet {A} (body : MDB_val -> MDB_val -> A -> A) :
  forall (t : table) (ck : option string) (fuel : nat) (acc : A) (w : world),
    quiet w = true -> (List.length t < fuel)%nat ->
    fst (while_cursor_get fuel (Some (mkCursor ck t)) MDB_NEXT_DUP body acc w) =
    fold_left (fun acc r => body (key_val w r) (string2val (snd r)) acc)
      (dup_run ck t) acc.
Proof.
  induction t as [|[k v] t IH]; intros ck fuel acc w Hq Hf;
    (destruct fuel as [|fuel]; [simpl in Hf; lia|]);
    destruct w as [vl io d [|z s] a tr u]; unfold quiet in Hq; cbn [script] in Hq;
    calm_facts; simpl; exec; simpl; try reflexivity.
  - destruct ck as [k0|]; [destruct (String.eqb k0 k)|]; simpl;
      try reflexivity;
      rewrite IH by (simpl in *; (reflexivity || lia)); reflexivity.
  - destruct ck as [k0|]; [destruct (String.eqb k0 k)|]; simpl;
      try reflexivity;
      rewrite IH by (simpl in *; (assumption || lia)); reflexivity.
Qed.

Lemma fold_left_collect {A B} (p : A -> bool) (f : A -> B) (t : list A)
    (acc : list B) :
  fold_left (fun acc r => if p r then f r :: acc else acc) t acc =
  rev (map f (filter p t)) ++ acc.
Proof.
  revert acc. induction t as [|x t IH]; intros acc; simpl; [reflexivity|].
  rewrite IH. destruct (p x); simpl; [|reflexivity].
  now rewrite <- app_assoc.
Qed.

Lemma fold_left_append {A B} (f : A -> B) (t : list A) (acc : list B) :
  fold_left (fun acc r => acc ++ [f r]) t acc = acc ++ map f t.
Proof.
  revert acc. induction t as [|x t IH]; intros acc; simpl.
  - now rewrite app_nil_r.
  - rewrite IH. now rewrite <- app_assoc.
Qed.

Lemma fold_left_same {A B} (f g : B -> A -> B) (t : list A) (acc : B) :
  (forall b a, f b a = g b a) -> fold_left f t acc = fold_left g t acc.
Proof.
  intros Hfg. revert acc. induction t as [|x t IH]; intros acc; simpl;
    [reflexivity|]. now rewrite Hfg, IH.
Qed.

#[local] Arguments while_cursor_get : simpl never.

Ltac scan_result :=
  match goal with
  | |- context [while_cursor_get ?f ?c ?op ?b ?acc ?w] =>
      rewrite (surjective_pairing (while_cursor_get f c op b acc w)); simpl
  end.

Lemma resolveSingleMatch_quiet (var : string) (l : list VariableValue) (w : world) :
  valid w = true -> quiet w = true ->
  result (resolveSingleMatch var l) w =
  l ++ map (fun r => VariableValue2 var (snd r)) (dup_run None (db w)).
Proof.
  intros Hv Hq. destruct w as [vl io d s a tr u].
  unfold quiet in Hq; cbn [script valid] in Hv, Hq; subst vl.
  destruct s as [|z0 [|z1 s]]; calm_facts; exec; destruct io; simpl;
    scan_result;
    rewrite while_next_dup_quiet by (simpl; (assumption || reflexivity || lia));
    simpl; rewrite <- (fold_left_append (fun r => VariableValue2 var (snd r)));
    apply fold_left_same; intros b r; now rewrite val2string_string2val.
Qed.

Lemma resolveMultiMatches_quiet (m_name var : string) (l : list VariableValue)
    (ke : KeyExclusions) (w : world) :
  valid w = true -> quiet w = true ->
  result (resolveMultiMatches m_name var l ke) w =
  rev (map (fun r => VariableValue3 m_name (fst r) (snd r))
           (filter (accepted var w) (db w))) ++ l.
Proof.
  intros Hv Hq. destruct w as [vl io d s a tr u].
  unfold quiet in Hq; cbn [script valid] in Hv, Hq; subst vl.
  unfold accepted.
  destruct s as [|z0 [|z1 s]]; calm_facts; exec;
    destruct io, (Nat.eqb (String.length var) 0) eqn:Hn; simpl;
    scan_result;
    rewrite while_next_quiet by (simpl; (assumption || reflexivity || lia));
    simpl; rewrite <- fold_left_collect; apply fold_left_same; intros b r;
    rewrite val2string_string2val, val2string_key_val; reflexivity.
Qed.

Lemma resolveRegularExpression_quiet `{RegexFacility} (var : string)
    (l : list VariableValue) (ke : KeyExclusions) (w : world) :
  valid w = true -> quiet w = true ->
  result (resolveRegularExpression var l ke) w =
  rev (map (fun r => VariableValue2 (fst r) (snd r))
           (filter (selected var ke w) (db w))) ++ l.
Proof.
  intros Hv Hq. destruct w as [vl io d s a tr u].
  unfold quiet in Hq; cbn [script valid] in Hv, Hq; subst vl.
  unfold selected.
  destruct s as [|z0 [|z1 s]]; calm_facts; exec; destruct io; simpl;
    scan_result;
    rewrite while_next_quiet by (simpl; (assumption || reflexivity || lia));
    simpl; rewrite <- fold_left_collect; apply fold_left_same; intros b r;
    rewrite val2string_string2val, val2string_key_val;
    destruct (_ <=? 0); simpl; try reflexivity;
    destruct (toOmit ke (fst r)); reflexivity.
Qed.

(** *** What [strncmp] decides *)

Lemma byte_val_inj (a b : ascii) : byte_val a = byte_val b -> a = b.
Proof.
  unfold byte_val. intros H. apply N2Z.inj in H.
  rewrite <- (ascii_N_embedding a), <- (ascii_N_embedding b). now rewrite H.
Qed.

(** For a prefix without NUL bytes, [strncmp] tells whether the prefix
    begins the memory found at the pointer. *)
Lemma strncmp_prefix (var mem : string) :
  nul_free var = true ->
  (strncmp var mem (String.length var) =? 0) = String.prefix var mem.
Proof.
  revert mem. induction var as [|c var IH]; intros mem Hnf.
  - destruct mem; reflexivity.
  - simpl in Hnf. apply andb_true_iff in Hnf as [Hc Hnf].
    apply negb_true_iff, Ascii.eqb_neq in Hc.
    assert (Hc0 : byte_val c <> 0).
    { intros H0. apply Hc. now apply byte_val_inj. }
    destruct mem as [|b mem]; simpl.
    + destruct (Z.eqb_spec (byte_val c) 0); [contradiction|]. simpl.
      apply Z.eqb_neq. lia.
    + destruct (Z.eqb_spec (byte_val c) (byte_val b)) as [E|E]; simpl.
      * apply byte_val_inj in E. subst b.
        destruct (Z.eqb_spec (byte_val c) 0); [contradiction|].
        destruct (ascii_dec c c); [|contradiction]. now apply IH.
      * destruct (ascii_dec c b); [subst; contradiction|].
        apply Z.eqb_neq. lia.
Qed.

Lemma prefix_app_long (var k tl : string) :
  (String.length var <= String.length k)%nat ->
  String.prefix var (k ++ tl)%string = String.prefix var k.
Proof.
  revert k. induction var as [|c var IH]; intros k Hlen.
  - destruct k, tl; reflexivity.
  - destruct k as [|b k]; simpl in *; [lia|].
    destruct (ascii_dec c b); [|reflexivity]. apply IH. lia.
Qed.

(** With an empty prefix the scan returns every record, once each, the last
    one first. *)
Lemma resolveMultiMatches_empty_prefix (m_name : string)
    (l : list VariableValue) (ke : KeyExclusions) (w : world) :
  valid w = true -> quiet w = true ->
  result (resolveMultiMatches m_name "" l ke) w =
  rev (map (fun r => VariableValue3 m_name (fst r) (snd r)) (db w)) ++ l.
Proof.
  intros Hv Hs. rewrite resolveMultiMatches_quiet by assumption.
  f_equal. f_equal. f_equal.
  apply forallb_filter_id. apply forallb_forall. reflexivity.
Qed.

(** With a prefix free of NUL bytes and no key shorter than it, the scan
    returns the records whose key begins with the prefix. *)
Lemma resolveMultiMatches_long_keys (m_name var : string)
    (l : list VariableValue) (ke : KeyExclusions) (w : world) :
  valid w = true -> quiet w = true -> nul_free var = true ->
  (forall r, In r (db w) -> (String.length var <= String.length (fst r))%nat) ->
  result (resolveMultiMatches m_name var l ke) w =
  rev (map (fun r => VariableValue3 m_name (fst r) (snd r))
           (filter (fun r => String.prefix var (fst r)) (db w))) ++ l.
Proof.
  intros Hv Hs Hnf Hlen. rewrite resolveMultiMatches_quiet by assumption.
  f_equal. f_equal. f_equal. apply filter_ext_in. intros r Hr.
  unfold accepted, key_val; simpl.
  rewrite strncmp_prefix by assumption.
  rewrite prefix_app_long by now apply Hlen.
  destruct (Nat.eqb_spec (String.length var) 0) as [E|E]; [|reflexivity].
  destruct var; [|discriminate]. now destruct (fst r).
Qed.

(** *** What [regex_search] is asked *)

Lemma c_str_read_terminated (k tl : string) :
  nul_free k = true -> byte_at tl = 0 -> c_str_read (k ++ tl)%string = k.
Proof.
  intros Hk Htl. induction k as [|c k IH]; simpl in *.
  - destruct tl as [|b tl]; [reflexivity|]. simpl in *.
    assert (b = NUL) as -> by now apply byte_val_inj. reflexivity.
  - apply andb_true_iff in Hk as [Hc Hk]. apply negb_true_iff in Hc.
    rewrite Hc. now rewrite IH.
Qed.

(** When no key holds a NUL byte and a NUL byte lies behind every key in
    memory, the scan returns the records whose key the facility finds a
    match in and the predicate does not ask to omit. *)
Lemma resolveRegularExpression_terminated_keys `{RegexFacility} (var : string)
    (l : list VariableValue) (ke : KeyExclusions) (w : world) :
  valid w = true -> quiet w = true ->
  (forall r, In r (db w) ->
     nul_free (fst r) = true /\ byte_at (after_key w (fst r) (snd r)) = 0) ->
  result (resolveRegularExpression var l ke) w =
  rev (map (fun r => VariableValue2 (fst r) (snd r))
           (filter (fun r => negb (regex_search (fst r) (mkRegex var true) <=? 0)
                             && negb (toOmit ke (fst r))) (db w))) ++ l.
Proof.
  intros Hv Hs Hkeys. rewrite resolveRegularExpression_quiet by assumption.
  f_equal. f_equal. f_equal. apply filter_ext_in. intros r Hr.
  destruct (Hkeys r Hr) as [Hnf Hnul].
  unfold selected, key_val; simpl.
  now rewrite c_str_read_terminated.
Qed.

(** ** The transaction calls of an operation *)


Ltac close_bracket :=
  repeat match goal with H : trace _ = _ |- _ => rewrite H end;
  rewrite <- ?app_assoc; simpl;
  eexists; split;
  [ first [reflexivity | symmetry; apply app_nil_r]
  | constructor; (assumption || discriminate || congruence) ].

Lemma store_rc_bracket (key value : string) (w : world) :
  exists tail, trace (run (store_rc key value) w) = trace w ++ tail /\
               write_bracket (result (store_rc key value) w) tail.
Proof.
  destruct w as [vl io d s a t u]. exec. crunch; rc_facts; close_bracket.
Qed.








(** ** The table after a mutating operation *)

Lemma run_store (key value : string) (w : world) :
  run (store key value) w = run (store_rc key value) w.
Proof. unfold store, run, bind. now destruct (store_rc key value w). Qed.

Lemma run_del (key : string) (w : world) :
  run (del key) w = run (del_rc key) w.
Proof. unfold del, run, bind. now destruct (del_rc key w). Qed.

Lemma run_updateFirst (key value : string) (w : world) :
  run (updateFirst key value) w = run (updateFirst_rc key value) w.
Proof. unfold updateFirst, run, bind. now destruct (updateFirst_rc key value w). Qed.

Lemma run_storeOrUpdateFirst (key value : string) (w : world) :
  run (storeOrUpdateFirst key value) w = run (storeOrUpdateFirst_rc key value) w.
Proof.
  unfold storeOrUpdateFirst, run, bind.
  now destruct (storeOrUpdateFirst_rc key value w).
Qed.

Lemma result_updateFirst (key value : string) (w : world) :
  result (updateFirst key value) w = (result (updateFirst_rc key value) w =? 0).
Proof. unfold updateFirst, result, bind. now destruct (updateFirst_rc key value w). Qed.

Lemma result_storeOrUpdateFirst (key value : string) (w : world) :
  result (storeOrUpdateFirst key value) w = true.
Proof.
  unfold storeOrUpdateFirst, result, bind.
  now destruct (storeOrUpdateFirst_rc key value w).
Qed.

Ltac no_zero :=
  repeat match goal with
  | |- context [?z =? 0] =>
      destruct (Z.eqb_spec z 0); [congruence|]
  end.

(** [store] puts its pair in the table when it ends with status zero and
    leaves the table as it was otherwise. *)
Lemma store_rc_db (key value : string) (w : world) :
  db (run (store_rc key value) w) =
  if result (store_rc key value) w =? 0
  then table_put (key, value) (db w) else db w.
Proof.
  destruct w as [vl io d s a t u]. exec.
  crunch; rc_facts; rewrite ?val2string_string2val; simpl;
    try reflexivity; no_zero; reflexivity.
Qed.

Lemma table_get_found (k : string) (t : table) (r : record) :
  table_get k t = Some r -> (k, snd r) = r /\ In r t.
Proof.
  intros H. apply table_get_key in H as [Hk Hin]. split; [|assumption].
  destruct r; simpl in *; now subst.
Qed.

Lemma del_rc_db (key : string) (w : world) :
  db (run (del_rc key) w) =
  if result (del_rc key) w =? 0
  then match table_get key (db w) with
       | Some r => table_del r (db w)
       | None => db w
       end
  else db w.
Proof.
  destruct w as [vl io d s a t u]. exec.
  crunch; rc_facts; rewrite ?val2string_string2val in *; simpl;
    try reflexivity; no_zero; try reflexivity.
  all: match goal with H : table_get _ _ = Some _ |- _ =>
         apply table_get_found in H as [Hr Hin]; now rewrite Hr end.
Qed.

Lemma updateFirst_rc_db (key value : string) (w : world) :
  db (run (updateFirst_rc key value) w) =
  if result (updateFirst_rc key value) w =? 0
  then match table_get key (db w) with
       | Some r => table_put (key, value) (table_del r (db w))
       | None => db w
       end
  else db w.
Proof.
  destruct w as [vl io d s a t u]. exec.
  crunch; rc_facts; rewrite ?val2string_string2val in *; simpl;
    try reflexivity; no_zero; try reflexivity.
  all: match goal with H : table_get _ _ = Some _ |- _ =>
         apply table_get_found in H as [Hr Hin]; now rewrite Hr end.
Qed.

Lemma storeOrUpdateFirst_rc_failure (key value : string) (w : world) :
  result (storeOrUpdateFirst_rc key value) w <> 0 ->
  db (run (storeOrUpdateFirst_rc key value) w) = db w.
Proof.
  destruct w as [vl io d s a t u]. exec.
  crunch; rc_facts; intros Hrc; try reflexivity; congruence.
Qed.

Lemma storeOrUpdateFirst_rc_quiet (key value : string) (w : world) :
  valid w = true -> quiet w = true ->
  result (storeOrUpdateFirst_rc key value) w = 0 /\
  db (run (storeOrUpdateFirst_rc key value) w) =
  table_put (key, value)
    match table_get key (db w) with
    | Some r => table_del r (db w)
    | None => db w
    end.
Proof.
  intros Hv Hq. calm_world w Hv Hq; exec.
  all: crunch; rc_facts; rewrite ?val2string_string2val in *; simpl;
    try (split; reflexivity).
  all: try match goal with H : table_get _ _ = Some _ |- _ =>
         apply table_get_found in H as [Hr Hin]; try rewrite Hr in * end.
  all: try (split; reflexivity).
  all: try match goal with H : existsb _ _ = false |- _ =>
         apply existsb_rec_eqb in Hin; congruence end.
Qed.


Lemma result_seq {A B} (m1 : M A) (m2 : M B) (w : world) :
  result (m1 ;;; m2) w = result m2 (run m1 w).
Proof. unfold run, result, bind. now destruct (m1 w). Qed.

(** *** Runs in which the engine reports no failure *)


Lemma del_quiet (key : string) (w : world) :
  valid w = true -> quiet w = true ->
  valid (run (del key) w) = true /\ quiet (run (del key) w) = true /\
  db (run (del key) w) =
  match table_get key (db w) with
  | Some r => table_del r (db w)
  | None => db w
  end.
Proof.
  intros Hv Hq. rewrite run_del. calm_world w Hv Hq; exec.
  all: crunch; repeat apply conj; try reflexivity; try assumption.
  all: match goal with H : table_get _ _ = Some _ |- _ =>
         apply table_get_found in H as [Hr Hin]; rewrite ?Hr in * end;
       try reflexivity.
  all: apply existsb_rec_eqb in Hin; congruence.
Qed.

Lemma resolveFirst_quiet (var : string) (w : world) :
  valid w = true -> quiet w = true ->
  result (resolveFirst var) w = option_map snd (table_get var (db w)).
Proof.
  intros Hv Hq. calm_world w Hv Hq; exec.
  all: crunch; rewrite ?val2string_string2val; reflexivity.
Qed.

Lemma store_rc_zero_iff (key value : string) (w : world) :
  result (store_rc key value) w = 0 <-> store_steps_ok w = true.
Proof.
  unfold store_steps_ok. destruct w as [vl io d s a t u]. exec.
  crunch; rc_facts; simpl; split; intros Hx; try reflexivity;
    try discriminate; try congruence.
  all: rewrite ?andb_true_iff, ?Z.eqb_eq in Hx; simpl in Hx; intuition congruence.
Qed.

Lemma store_defined (key value : string) (w : world) :
  undefined (run (store key value) w) = undefined w.
Proof.
  rewrite run_store. destruct w as [vl io d s a t u]. exec. crunch; reflexivity.
Qed.

Lemma del_defined (key : string) (w : world) :
  undefined (run (del key) w) = undefined w.
Proof.
  rewrite run_del. destruct w as [vl io d s a t u]. exec. crunch; reflexivity.
Qed.

(** *** Handles *)

Ltac scan_defined :=
  match goal with
  | |- context [while_cursor_get ?f (Some ?c) ?op ?b ?acc ?w] =>
      let D := fresh "D" in
      pose proof (while_cursor_get_defined f c op b acc w) as D;
      destruct (while_cursor_get f (Some c) op b acc w); simpl in *;
      exact D
  end.

(** Every operation but [resolveSingleMatch] hands the engine valid handles
    only, whatever the engine answers. *)
Lemma operations_use_valid_handles `{RegexFacility} (w : world)
    (m_name k v : string) (l : list VariableValue) (ke : KeyExclusions) :
  undefined (run (store k v) w) = undefined w /\
  undefined (run (del k) w) = undefined w /\
  undefined (run (updateFirst k v) w) = undefined w /\
  undefined (run (storeOrUpdateFirst k v) w) = undefined w /\
  undefined (run (resolveFirst k) w) = undefined w /\
  undefined (run (resolveMultiMatches m_name k l ke) w) = undefined w /\
  undefined (run (resolveRegularExpression k l ke) w) = undefined w.
Proof.
  repeat apply conj.
  - apply store_defined.
  - apply del_defined.
  - rewrite run_updateFirst. destruct w as [vl io d s a t u]. exec.
    crunch; reflexivity.
  - rewrite run_storeOrUpdateFirst. destruct w as [vl io d s a t u]. exec.
    crunch; reflexivity.
  - destruct w as [vl io d s a t u]. exec. crunch; reflexivity.
  - destruct w as [vl io d s a t u]. exec.
    crunch; try reflexivity; scan_defined.
  - destruct w as [vl io d s a t u]. exec.
    crunch; try reflexivity; scan_defined.
Qed.

(** [resolveSingleMatch] goes on with the cursor it was not given when
    [mdb_cursor_open] is refused. *)
Lemma resolveSingleMatch_unopened_cursor :
  let w := opened [("a", "1")] [0; 0; 0; 0; 0; 12] no_layout in
  undefined w = false /\
  undefined (run (resolveSingleMatch "a" []) w) = true.
Proof. vm_compute. split; reflexivity. Qed.

(** * The claims *)

(** ** Storing and looking up *)



(** ** Deleting *)

(** C6, as the code has it.  [del(k)] deletes the one record its lookup
    finds.  When [k] has at most one record and the engine reports no
    failure, [resolveFirst(k)] yields nothing after [del(k)].  When [k] has
    no record, [del(k)] leaves the table as it was, whatever the engine
    answers, and uses no invalid handle. *)
Theorem del_single_then_absent (w : world) (k : string) :
  ((forall v, ~ In (k, v) (db w)) ->
   db (run (del k) w) = db w /\ undefined (run (del k) w) = undefined w) /\
  (valid w = true -> quiet w = true ->
   (List.length (filter (has_key k) (db w)) <= 1)%nat ->
   result (del k ;;; resolveFirst k) w = None).
Proof.
  split.
  - intros Hk. split; [|apply del_defined].
    apply table_get_None in Hk. rewrite run_del, del_rc_db, Hk.
    now destruct (_ =? 0).
  - intros Hv Hs Hone. rewrite result_seq.
    destruct (del_quiet k w Hv Hs) as (Hv' & Hs' & Hdb).
    rewrite resolveFirst_quiet by assumption. rewrite Hdb.
    destruct (table_get k (db w)) as [r|] eqn:Hget.
    + now rewrite (table_get_del_single k (db w) r Hone Hget).
    + now rewrite Hget.
Qed.

Lemma del_single_then_absent_witness :
  result (del "ip" ;;; resolveFirst "ip")
         (opened [("a", "1"); ("ip", "5")] [] no_layout) = None.
Proof.
  apply (del_single_then_absent (opened [("a", "1"); ("ip", "5")] [] no_layout) "ip");
    [reflexivity | reflexivity | simpl; lia].
Defined.

(** C6, as the claim states it, fails on a key with two values: [del]
    removes the first and [resolveFirst] finds the second. *)
Lemma del_leaves_other_duplicates :
  let w := run (store "a" "1" ;;; store "a" "2") (opened [] [] no_layout) in
  db w = [("a", "1"); ("a", "2")] /\
  result (del "a" ;;; resolveFirst "a") w = Some "2" /\
  result (del "a" ;;; resolveFirst "a") w <> None.
Proof. vm_compute. repeat split; discriminate. Qed.

(** ** Failure of [store] *)

(** C4, as the code has it.  When the environment is invalid or one of the
    statuses [store] reads is not zero, the table is afterwards what it was;
    no transaction is left open: none was begun, or the one begun was
    aborted, or its commit was refused; no invalid handle is used; and
    [store] returns, giving its caller nothing. *)
Theorem store_failure_keeps_table (w : world) (k v : string) :
  store_steps_ok w = false ->
  db (run (store k v) w) = db w /\
  result (store_rc k v) w <> 0 /\
  (exists tail, trace (run (store k v) w) = trace w ++ tail /\
                write_bracket (result (store_rc k v) w) tail) /\
  undefined (run (store k v) w) = undefined w /\
  result (store k v) w = tt.
Proof.
  intros Hbad.
  assert (Hrc : result (store_rc k v) w <> 0).
  { intros H0. apply store_rc_zero_iff in H0. congruence. }
  repeat split.
  - rewrite run_store, store_rc_db.
    destruct (Z.eqb_spec (result (store_rc k v) w) 0); [contradiction|reflexivity].
  - assumption.
  - rewrite run_store. apply store_rc_bracket.
  - apply store_defined.
  - now destruct (result (store k v) w).
Qed.

Lemma store_failure_keeps_table_witness :
  let w := opened [("a", "1")] [0; 0; 0; 0; 0; 28] no_layout in
  db (run (store "ip" "5") w) = db w.
Proof.
  apply (store_failure_keeps_table
           (opened [("a", "1")] [0; 0; 0; 0; 0; 28] no_layout) "ip" "5").
  reflexivity.
Defined.

(** C4, as the claim states it, fails: a run of [store] whose insert is
    refused and a run that commits hand the same value back to the caller. *)
Lemma store_gives_no_report :
  let w_ok := opened [] [] no_layout in
  let w_bad := opened [] [0; 0; 0; 0; 0; 28] no_layout in
  result (store_rc "ip" "5") w_ok = 0 /\
  result (store_rc "ip" "5") w_bad = 28 /\
  db (run (store "ip" "5") w_ok) = [("ip", "5")] /\
  db (run (store "ip" "5") w_bad) = [] /\
  result (store "ip" "5") w_bad = result (store "ip" "5") w_ok.
Proof. vm_compute. repeat split. Qed.

(** ** An environment that did not open *)

(** C9, evaluated on the code.  When [mdb_env_open] is refused, [isValid()]
    is false.  In an invalid environment no operation reaches the engine: no
    transaction call is made, the table and the script are as before;
    [resolveFirst] yields nothing, the three scans add nothing to the list,
    [updateFirst] returns false -- and [storeOrUpdateFirst] returns true. *)
Theorem invalid_environment `{RegexFacility} :
  (forall file rc s layout, rc <> 0 -> isValid (opened file (rc :: s) layout) = false) /\
  (forall w : world, isValid w = false ->
   forall (m_name k v : string) (l : list VariableValue) (ke : KeyExclusions),
     untouched w (run (store k v) w) /\
     untouched w (run (del k) w) /\
     (untouched w (run (updateFirst k v) w) /\
      result (updateFirst k v) w = false) /\
     (untouched w (run (storeOrUpdateFirst k v) w) /\
      result (storeOrUpdateFirst k v) w = true) /\
     (untouched w (run (resolveFirst k) w) /\
      result (resolveFirst k) w = None) /\
     (untouched w (run (resolveSingleMatch k l) w) /\
      result (resolveSingleMatch k l) w = l) /\
     (untouched w (run (resolveMultiMatches m_name k l ke) w) /\
      result (resolveMultiMatches m_name k l ke) w = l) /\
     (untouched w (run (resolveRegularExpression k l ke) w) /\
      result (resolveRegularExpression k l ke) w = l)).
Proof.
  split.
  - intros file rc s layout Hrc. unfold opened, MDBEnvProvider, boot.
    unfold mdb_env_open, set_valid. exec. simpl.
    destruct (Z.eqb_spec rc 0); [contradiction|reflexivity].
  - intros [vl io d s a t u] Hv m_name k v l ke.
    unfold isValid in Hv; simpl in Hv; subst vl.
    unfold untouched. exec. destruct io; simpl; repeat split.
Qed.

Lemma invalid_environment_witness :
  let w := opened [("a", "1")] [13] no_layout in
  isValid w = false /\
  result (storeOrUpdateFirst "a" "2") w = true /\
  db (run (storeOrUpdateFirst "a" "2") w) = [("a", "1")] /\
  trace (run (storeOrUpdateFirst "a" "2") w) = [].
Proof.
  pose (regex := {| regex_search := fun _ _ => 0 |}).
  destruct (@invalid_environment regex) as [Hopen Hops].
  assert (Hv : isValid (opened [("a", "1")] [13] no_layout) = false).
  { apply Hopen. discriminate. }
  destruct (Hops _ Hv "col" "a" "2" [] (mkKeyExclusions (fun _ => false)))
    as (_ & _ & _ & [(_ & Hdb & Htr & _) Hres] & _).
  repeat split; assumption.
Defined.

(** ** The exclusions in a prefix scan *)

(** C10.  [resolveMultiMatches] gives the same result and leaves the same
    state for any two exclusion predicates; and, the engine reporting no
    failure, a record that passes the prefix test is in the result also when
    the predicate asks for its key to be omitted. *)
Theorem resolveMultiMatches_ignores_exclusions (w : world) (m_name var : string)
    (l : list VariableValue) (ke1 ke2 : KeyExclusions) :
  resolveMultiMatches m_name var l ke1 w = resolveMultiMatches m_name var l ke2 w /\
  (valid w = true -> quiet w = true ->
   forall r, In r (db w) -> accepted var w r = true ->
             toOmit ke1 (fst r) = true ->
             In (VariableValue3 m_name (fst r) (snd r))
                (result (resolveMultiMatches m_name var l ke1) w)).
Proof.
  split; [reflexivity|].
  intros Hv Hs r Hin Hacc _.
  rewrite resolveMultiMatches_quiet by assumption.
  apply in_or_app; left. apply in_rev. rewrite rev_involutive.
  apply (in_map (fun r => VariableValue3 m_name (fst r) (snd r))).
  apply filter_In. now split.
Qed.

Lemma resolveMultiMatches_ignores_exclusions_witness :
  In (VariableValue3 "ip" "ip:1.2.3.4" "5")
     (result (resolveMultiMatches "ip" "ip:" [] (mkKeyExclusions (fun _ => true)))
             (opened [("ip:1.2.3.4", "5"); ("session", "x")] [] no_layout)).
Proof.
  apply (resolveMultiMatches_ignores_exclusions
           (opened [("ip:1.2.3.4", "5"); ("session", "x")] [] no_layout)
           "ip" "ip:" [] (mkKeyExclusions (fun _ => true))
           (mkKeyExclusions (fun _ => false)))
    with (r := ("ip:1.2.3.4", "5")); try reflexivity.
  simpl. now left.
Defined.

(** ** Transactions are ended once *)

(** Every operation but [resolveSingleMatch] uses valid handles only;
    [resolveSingleMatch] does so when its cursor opens. *)
Lemma resolveSingleMatch_defined (var : string) (l : list VariableValue)
    (w : world) :
  nth 1 (script w) 0 = 0 ->
  undefined (run (resolveSingleMatch var l) w) = undefined w.
Proof.
  destruct w as [vl io d s a t u]. simpl. intros H1. exec.
  crunch; rc_facts; simpl in *; try congruence; try reflexivity.
  all: match goal with
       | |- context [while_cursor_get ?f (Some ?c) ?op ?b ?acc ?w] =>
           pose proof (while_cursor_get_defined f c op b acc w) as D;
           destruct (while_cursor_get f (Some c) op b acc w); simpl in *;
           exact D
       end.
Qed.



(** ** Replacing the first value *)

(** Both variants leave the table as it was when they end with a status
    other than zero, and [updateFirst] returns true exactly when it ends with
    status zero. *)
Lemma replaceFirst_failure_keeps_table (k v : string) (w : world) :
  (result (storeOrUpdateFirst_rc k v) w <> 0 ->
   db (run (storeOrUpdateFirst k v) w) = db w) /\
  (result (updateFirst k v) w = false ->
   db (run (updateFirst k v) w) = db w) /\
  (result (updateFirst k v) w = true <-> result (updateFirst_rc k v) w = 0).
Proof.
  split; [|split].
  - intros Hrc. rewrite run_storeOrUpdateFirst.
    now apply storeOrUpdateFirst_rc_failure.
  - rewrite result_updateFirst, run_updateFirst, updateFirst_rc_db.
    now intros ->.
  - rewrite result_updateFirst. apply Z.eqb_eq.
Qed.

(** C1, evaluated on the code.  [storeOrUpdateFirst] returns true on every
    run.  In the first run below the insert is refused: the transaction is
    aborted and the table is as before.  In the second the commit is
    refused, in the third the environment never opened.  The status the
    body ends with is not zero in any of them, and the call returns true in
    all three. *)
Theorem storeOrUpdateFirst_returns_true :
  (forall k v w, result (storeOrUpdateFirst k v) w = true) /\
  (let w := opened [("ip", "5")] [0; 0; 0; 0; 0; 0; 0; 28] no_layout in
   result (storeOrUpdateFirst_rc "ip" "6") w = 28 /\
   result (storeOrUpdateFirst "ip" "6") w = true /\
   db (run (storeOrUpdateFirst "ip" "6") w) = [("ip", "5")] /\
   trace (run (storeOrUpdateFirst "ip" "6") w) =
   trace w ++ [TxnBegin false 0; TxnAbort]) /\
  (let w := opened [("ip", "5")] [0; 0; 0; 0; 0; 0; 0; 0; 5] no_layout in
   result (storeOrUpdateFirst_rc "ip" "6") w = 5 /\
   result (storeOrUpdateFirst "ip" "6") w = true /\
   db (run (storeOrUpdateFirst "ip" "6") w) = [("ip", "5")] /\
   trace (run (storeOrUpdateFirst "ip" "6") w) =
   trace w ++ [TxnBegin false 0; TxnCommit 5]) /\
  (let w := opened [("ip", "5")] [13] no_layout in
   result (storeOrUpdateFirst_rc "ip" "6") w = -1 /\
   result (storeOrUpdateFirst "ip" "6") w = true /\
   result (updateFirst "ip" "6") w = false).
Proof.
  split; [exact result_storeOrUpdateFirst|].
  vm_compute. repeat split.
Qed.

(** ** The values of one key *)

(** C2, evaluated on the code.  The cursor of [resolveSingleMatch] is opened
    and then only moved with [MDB_NEXT_DUP]: it is never placed on [var].
    After [store("a","1")] and [store("b","2")] the call for ["b"], and the
    call for a key that has no record, both return the value of ["a"].
    After [store("a","1")] and [store("a","2")] in a table that holds a
    smaller key, the call for ["a"] returns the value of that key; in an
    empty table it returns both values. *)
Theorem resolveSingleMatch_reads_first_key :
  (let w := run (store "a" "1" ;;; store "b" "2") (opened [] [] no_layout) in
   db w = [("a", "1"); ("b", "2")] /\
   result (resolveSingleMatch "b" []) w = [VariableValue2 "b" "1"] /\
   result (resolveSingleMatch "zzz" []) w = [VariableValue2 "zzz" "1"]) /\
  (let w0 := opened [("0", "x")] [] no_layout in
   let w := run (store "a" "1" ;;; store "a" "2") w0 in
   result (resolveFirst "a") w0 = None /\
   db w = [("0", "x"); ("a", "1"); ("a", "2")] /\
   result (resolveSingleMatch "a" []) w = [VariableValue2 "a" "x"]) /\
  (let w := run (store "a" "1" ;;; store "a" "2") (opened [] [] no_layout) in
   result (resolveSingleMatch "a" []) w =
   [VariableValue2 "a" "1"; VariableValue2 "a" "2"]).
Proof. vm_compute. repeat split. Qed.

(** ** Keys read as C strings *)

(** C5, evaluated on the code.  [strncmp] is given the raw key pointer.  It
    stops at a NUL byte: the key [a\0c] is returned for the prefix [a\0b],
    which it does not begin with, whatever lies behind the key in memory.
    And it reads on behind a key shorter than the prefix: where the value
    bytes follow the key bytes, the record of key [ab] and value [cd] is
    returned for the prefix [abc]. *)
Theorem resolveMultiMatches_compares_c_strings
    (layout : string -> string -> string) (ke : KeyExclusions) :
  (String.prefix key_a0b key_a0c = false /\
   result (resolveMultiMatches "col" key_a0b [] ke)
          (run (store key_a0c "v") (opened [] [] layout))
   = [VariableValue3 "col" key_a0c "v"]) /\
  (String.prefix "abc" "ab" = false /\
   result (resolveMultiMatches "col" "abc" [] ke)
          (run (store "ab" "cd") (opened [] [] value_follows))
   = [VariableValue3 "col" "ab" "cd"]).
Proof.
  repeat apply conj; try (vm_compute; reflexivity).
  rewrite resolveMultiMatches_quiet by reflexivity. vm_compute. reflexivity.
Qed.

(** C8, evaluated on the code.  [regex_search] is given the raw key pointer
    and no length.  For the key [a\0b] the facility is asked about [a],
    whatever lies behind the key in memory, so that the pattern [b], found
    in the key, selects nothing.  Where the value bytes follow the key
    bytes, the facility is asked about [abcd] for the key [ab] with value
    [cd], so that the pattern [cd], not found in the key, selects the
    record. *)
Theorem resolveRegularExpression_reads_c_strings `{RegexFacility}
    (layout : string -> string -> string) (var : string) :
  (result (resolveRegularExpression var [] omit_nothing)
          (run (store key_a0b "v") (opened [] [] layout))
   = if regex_search "a" (mkRegex var true) <=? 0 then []
     else [VariableValue2 key_a0b "v"]) /\
  (result (resolveRegularExpression var [] omit_nothing)
          (run (store "ab" "cd") (opened [] [] value_follows))
   = if regex_search "abcd" (mkRegex var true) <=? 0 then []
     else [VariableValue2 "ab" "cd"]) /\
  (occurs "b" key_a0b = true /\
   result (@resolveRegularExpression literal_search "b" [] omit_nothing)
          (run (store key_a0b "v") (opened [] [] layout)) = []) /\
  (occurs "cd" "ab" = false /\
   result (@resolveRegularExpression literal_search "cd" [] omit_nothing)
          (run (store "ab" "cd") (opened [] [] value_follows))
   = [VariableValue2 "ab" "cd"]).
Proof.
  repeat apply conj; try (vm_compute; reflexivity).
  rewrite resolveRegularExpression_quiet by reflexivity.
  unfold selected, key_a0b; cbn; rewrite !val2string_string2val; cbn.
  destruct (regex_search "a" _ <=? 0); reflexivity.
Qed.
